(** * Training-loop helpers of [TTS/utils/training.py]

    A shallow embedding of the helper functions of the training driver:
    the gradient guard [check_update], the warm-up formula [lr_decay] and
    its stateful variant [NoamLR], the custom decay step
    [adam_weight_decay], the parameter partition [set_weight_decay], the
    piecewise schedule [StepwiseGradualLR] and the selector
    [gradual_training_scheduler].

    Number model.  Python integers are [Z].  A float that the code only
    stores and hands back (the rates of the stepwise schedule) is a
    binary64 value of [PrimFloat]; a float that it classifies (the
    gradient norm, tested by [isinf]) is an IEEE 754 datum of
    [SpecFloat].  A float on which the code does arithmetic ([**], [*],
    [+], [min]) is idealised as a real number: rounding is out of scope,
    and the power [x ** y] is [Rpower x y], which agrees with the Python
    operator on positive bases only. *)

From Stdlib Require Import List ZArith Bool Arith Lia String Ascii.
From Stdlib Require Import Reals Lra.
From Stdlib Require Import Sorted Permutation.
From Stdlib Require Import PrimFloat SpecFloat.
Import ListNotations.

Set Implicit Arguments.

(** ** The fragment of Python the helpers rely on *)

Module Py.

(** The built-in exceptions that the modelled code paths can raise. *)
Inductive exn : Type :=
| IndexError          (* sequence index out of range *)
| ValueError          (* e.g. numpy reduction over a zero-size array *)
| TypeError           (* e.g. subscripting [None] *)
| UnboundLocalError.  (* local variable read before assignment *)

Inductive result (A : Type) : Type :=
| Ok (a : A)
| Raise (e : exn).
Arguments Ok {A} a.
Arguments Raise {A} e.

Definition bind {A B} (m : result A) (k : A -> result B) : result B :=
  match m with
  | Ok a => k a
  | Raise e => Raise e
  end.

(** [seq[i]] on a list: a negative index counts from the end, and an
    index outside [-len, len) raises [IndexError]. *)
Definition getitem {A} (l : list A) (i : Z) : result A :=
  let n := Z.of_nat (List.length l) in
  let j := if (i <? 0)%Z then (i + n)%Z else i in
  if ((j <? 0)%Z || (n <=? j)%Z)%bool then Raise IndexError
  else match nth_error l (Z.to_nat j) with
       | Some a => Ok a
       | None => Raise IndexError
       end.

(** [v[i]] where [v] may be [None]: subscripting [None] raises
    [TypeError]. *)
Definition subscript {A B} (v : option A) (proj : A -> B) : result B :=
  match v with
  | Some a => Ok (proj a)
  | None => Raise TypeError
  end.

(** [sub in s] on strings. *)
Fixpoint contains (sub s : string) : bool :=
  (String.prefix sub s ||
   match s with
   | EmptyString => false
   | String _ s' => contains sub s'
   end)%bool.

End Py.

Notation "x <- m ;; k" := (Py.bind m (fun x => k))
  (at level 61, m at next level, right associativity).

Import Py.

(** ** [gradual_training_scheduler] *)

Module Gradual.

(** One entry [values] of [config.gradual_training]:
    [values[0]], [values[1]], [values[2]]. *)
Record Entry : Type := mkEntry {
  step_threshold : Z;
  batch_size : Z;
  grad_accum_steps : Z
}.

(** The [for] loop: [new_values] is overwritten by every entry whose
    threshold the scaled step has reached. *)
Fixpoint scan (scaled : Z) (new_values : option Entry)
         (config : list Entry) : option Entry :=
  match config with
  | [] => new_values
  | values :: rest =>
      if (scaled >=? step_threshold values)%Z
      then scan scaled (Some values) rest
      else scan scaled new_values rest
  end.

(** [device_count] stands for [torch.cuda.device_count()]. *)
Definition gradual_training_scheduler
           (device_count : nat) (global_step : Z) (config : list Entry)
  : result (Z * Z) :=
  let num_gpus := device_count in
  let num_gpus := if Nat.eqb num_gpus 0 then 1%nat else num_gpus in
  let new_values := scan (global_step * Z.of_nat num_gpus) None config in
  b <- subscript new_values batch_size ;;
  g <- subscript new_values grad_accum_steps ;;
  Ok (b, g).

(** Thresholds strictly increasing along the list. *)
Fixpoint strictly_increasing (config : list Entry) : Prop :=
  match config with
  | [] => True
  | e :: rest =>
      match rest with
      | [] => True
      | e' :: _ => (step_threshold e < step_threshold e')%Z
      end /\ strictly_increasing rest
  end.

(** [e] is the last entry of [config] whose threshold is at most
    [scaled]: it qualifies, and no entry after it does. *)
Definition last_qualifying (scaled : Z) (config : list Entry) (e : Entry)
  : Prop :=
  exists pre post,
    config = pre ++ e :: post /\
    (step_threshold e <= scaled)%Z /\
    Forall (fun e' => (scaled < step_threshold e')%Z) post.

(** The configuration of the worked example. *)
Definition demo_config : list Entry :=
  [mkEntry 0 32 1; mkEntry 1000 16 2; mkEntry 2000 8 4].

End Gradual.

(** ** The numpy primitives used by the stepwise schedule *)

Module Np.

(** What [first_false] can hold: a numpy integer scalar or a
    one-dimensional integer array. *)
Inductive ndval : Type :=
| Scalar (k : Z)
| Array (a : list Z).

(** The integers that numpy holds exactly, as [int64]. *)
Definition int64 (z : Z) : Prop :=
  (-9223372036854775808 <= z < 9223372036854775808)%Z.

(** [np.less(thresholds, step)], element by element.  The comparison is
    that of exact integers: this is what numpy computes when the
    thresholds and the step are all [int64], the list being then held
    as an integer array.  A list that mixes such values with larger ones
    is held in floating point and is not covered. *)
Definition less (thresholds : list Z) (step : Z) : list bool :=
  map (fun t => (t <? step)%Z) thresholds.

(** [np.where(mask == False)[0]]: the positions of the [False] entries,
    in increasing order. *)
Fixpoint where_false_from (i : Z) (mask : list bool) : list Z :=
  match mask with
  | [] => []
  | b :: rest =>
      if b then where_false_from (i + 1) rest
      else i :: where_false_from (i + 1) rest
  end.

Definition where_false (mask : list bool) : list Z :=
  where_false_from 0 mask.

(** [v - 1], broadcast over an array. *)
Definition minus_one (v : ndval) : ndval :=
  match v with
  | Scalar k => Scalar (k - 1)
  | Array a => Array (map (fun k => (k - 1)%Z) a)
  end.

(** [np.max(v, 0)]: the second positional argument of [np.max] is the
    axis.  Reducing a scalar along axis 0 gives the scalar back; reducing
    a zero-size array raises [ValueError], since the maximum has no
    identity; a non-empty array gives its greatest element. *)
Definition max_axis0 (v : ndval) : result Z :=
  match v with
  | Scalar k => Ok k
  | Array [] => Raise ValueError
  | Array (k :: rest) => Ok (fold_left Z.max rest k)
  end.

(** [np.tile(x, n)] for a scalar [x]. *)
Definition tile {A} (x : A) (n : nat) : list A := repeat x n.

End Np.

(** ** [StepwiseGradualLR] *)

Module Stepwise.

(** The state [get_lr] reads: [self.config.gradual_learning_rates],
    [self.last_epoch] and [self.base_lrs]. *)
Record StepwiseGradualLR : Type := mkStepwise {
  gradual_learning_rates : list (Z * float);
  last_epoch : Z;
  base_lrs : list float
}.

Definition get_lr (self : StepwiseGradualLR) : result (list float) :=
  let step := Z.max (last_epoch self) 1 in
  let step_thresholds := map fst (gradual_learning_rates self) in
  let rates := map snd (gradual_learning_rates self) in
  let boolean_indeces := Np.less step_thresholds step in
  (* try: first_false = np.where(...)[0]; first_false = first_false[0]
     except IndexError: pass *)
  let indices := Np.where_false boolean_indeces in
  let first_false :=
    match getitem indices 0 with
    | Ok k => Np.Scalar k
    | Raise _ => Np.Array indices
    end in
  i <- Np.max_axis0 (Np.minus_one first_false) ;;
  lr <- getitem rates i ;;
  (* lr = rates[-1] if step > step_thresholds[-1] else lr *)
  t_last <- getitem step_thresholds (-1) ;;
  lr <- (if (step >? t_last)%Z then getitem rates (-1) else Ok lr) ;;
  (* lr = rates[0] if step < step_thresholds[1] else lr *)
  t_second <- getitem step_thresholds 1 ;;
  lr <- (if (step <? t_second)%Z then getitem rates 0 else Ok lr) ;;
  Ok (Np.tile lr (List.length (base_lrs self))).

(** The configuration of the worked example. *)
#[warnings="-inexact-float"] Definition rate_initial : float := 0.1%float.
#[warnings="-inexact-float"] Definition rate_middle : float := 0.01%float.
#[warnings="-inexact-float"] Definition rate_final : float := 0.001%float.

Definition demo_rates : list (Z * float) :=
  [(0%Z, rate_initial); (100%Z, rate_middle); (200%Z, rate_final)].

End Stepwise.

(** ** [lr_decay] and [NoamLR] *)

Module Warmup.
Local Open Scope R_scope.

(** A Python number handed to [float(...)]. *)
Inductive number : Type :=
| PyInt (n : Z)
| PyFloat (x : R).

Definition float (v : number) : R :=
  match v with
  | PyInt n => IZR n
  | PyFloat x => x
  end.

(** [np.minimum] on two scalars, and the built-in [min]. *)
Definition np_minimum (a b : R) : R := Rmin a b.

Definition lr_decay (init_lr : R) (global_step : Z) (warmup_steps : number)
  : R :=
  let warmup_steps := float warmup_steps in
  let step := IZR global_step + 1 in
  let lr := init_lr * Rpower warmup_steps 0.5 *
            np_minimum (step * Rpower warmup_steps (-1.5))
                       (Rpower step (-0.5)) in
  lr.

(** The rate as the specification words it, for a step counted from 1. *)
Definition warmup_rate (init_lr : R) (step : Z) (warmup_steps : R) : R :=
  init_lr * Rpower warmup_steps 0.5 *
  Rmin (IZR step * Rpower warmup_steps (-1.5)) (Rpower (IZR step) (-0.5)).

(** The state [NoamLR.get_lr] reads; [warmup_steps] was stored as
    [float(warmup_steps)] by the constructor. *)
Record NoamLR : Type := mkNoam {
  warmup_steps : R;
  last_epoch : Z;
  base_lrs : list R
}.

Definition get_lr (self : NoamLR) : list R :=
  let step := Z.max (last_epoch self) 1 in
  map (fun base_lr =>
         base_lr * Rpower (warmup_steps self) 0.5 *
         Rmin (IZR step * Rpower (warmup_steps self) (-1.5))
              (Rpower (IZR step) (-0.5)))
      (base_lrs self).

End Warmup.

(** ** Model parameters *)

Module Torch.

(** A parameter object: its identity and the attributes the helpers
    read.  [shape] is [param.shape]; its length is the tensor rank. *)
Record Param : Type := mkParam {
  param_id : nat;
  shape : list nat;
  requires_grad : bool
}.

(** The contents of a parameter: [param.data] and [param.grad], flat. *)
Record Tensor : Type := mkTensor {
  data : list R;
  grad : list R
}.

(** The heap of parameter contents, keyed by parameter identity. *)
Definition Store : Type := nat -> Tensor.

Definition update (st : Store) (i : nat) (t : Tensor) : Store :=
  fun j => if Nat.eqb j i then t else st j.

(** [model.named_parameters()]; [model.parameters()] is its second
    projection. *)
Definition Model : Type := list (string * Param).

Definition parameters (model : Model) : list Param := map snd model.

End Torch.

(** ** [set_weight_decay] *)

Module WeightDecay.
Import Torch.

(** One of the two returned dictionaries. *)
Record ParamGroup : Type := mkGroup {
  params : list Param;
  weight_decay : R
}.

Definition default_skip_list : list string :=
  ["decoder.attention.v"; "rnn"; "lstm"; "gru"; "embedding"]%string.

Definition reserved_name : string := "capacitron_layer.beta"%string.

(** [len(param.shape) == 1 or any([skip_name in name ...])] *)
Definition skips_decay (skip_list : list string) (name : string)
           (param : Param) : bool :=
  (Nat.eqb (List.length (shape param)) 1
   || existsb (fun skip_name => contains skip_name name) skip_list)%bool.

(** The [for] loop over [model.named_parameters()], threading the two
    lists it appends to. *)
Fixpoint partition_loop (skip_list : list string) (model : Model)
         (decay no_decay : list Param) : list Param * list Param :=
  match model with
  | [] => (decay, no_decay)
  | (name, param) :: rest =>
      if String.eqb name reserved_name
      then partition_loop skip_list rest decay no_decay
      else if negb (requires_grad param)
      then partition_loop skip_list rest decay no_decay
      else if skips_decay skip_list name param
      then partition_loop skip_list rest decay (no_decay ++ [param])
      else partition_loop skip_list rest (decay ++ [param]) no_decay
  end.

Definition set_weight_decay (model : Model) (weight_decay : R)
           (skip_list : list string) : list ParamGroup :=
  let '(decay, no_decay) := partition_loop skip_list model [] [] in
  [ {| params := no_decay; weight_decay := 0%R |};
    {| params := decay; weight_decay := weight_decay |} ].

(** The parameters the loop does not skip. *)
Definition eligible (name : string) (param : Param) : bool :=
  (negb (String.eqb name reserved_name) && requires_grad param)%bool.

(** [sub] occurs in [s] as a contiguous block. *)
Definition is_substring (sub s : string) : Prop :=
  exists pre post, s = (pre ++ sub ++ post)%string.

(** The condition that sends an eligible parameter to the no-decay
    group: rank 1, or a name containing an excluded substring. *)
Definition exempt (skip_list : list string) (name : string) (param : Param)
  : Prop :=
  List.length (shape param) = 1%nat \/
  exists skip_name, In skip_name skip_list /\ is_substring skip_name name.

(** A small parameter listing used to exercise the partition. *)
Definition demo_bias : Param := mkParam 1 [80%nat] true.

Definition demo_model : Model :=
  [("decoder.linear.weight"%string, mkParam 0 [80%nat; 256%nat] true);
   ("decoder.linear.bias"%string, demo_bias);
   ("encoder.lstm.weight_ih"%string, mkParam 2 [1024%nat; 512%nat] true);
   ("capacitron_layer.beta"%string, mkParam 3 [1%nat] true);
   ("speaker.frozen.weight"%string, mkParam 4 [64%nat; 64%nat] false)].

End WeightDecay.

(** ** [adam_weight_decay] *)

Module AdamDecay.
Import Torch.
Local Open Scope R_scope.

(** One entry of [optimizer.param_groups]. *)
Record Group : Type := mkGroup {
  params : list Param;
  lr : R;
  weight_decay : R
}.

Definition Optimizer : Type := list Group.

(** [t.add(other, alpha=a)]: [t + a * other], element by element. *)
Definition add_alpha (t other : list R) (alpha : R) : list R :=
  map (fun xy => fst xy + alpha * snd xy) (combine t other).

(** The inner loop; [current_lr] is [None] while the local variable is
    unbound. *)
Fixpoint decay_params (group : Group) (ps : list Param)
         (st : Store) (current_lr : option R) : Store * option R :=
  match ps with
  | [] => (st, current_lr)
  | param :: rest =>
      let current_lr := lr group in
      let weight_decay := weight_decay group in
      let factor := - weight_decay * lr group in
      let t := st (param_id param) in
      let t' := {| data := add_alpha (data t) (data t) factor;
                   grad := grad t |} in
      decay_params group rest (update st (param_id param) t')
                   (Some current_lr)
  end.

Fixpoint decay_groups (groups : list Group)
         (st : Store) (current_lr : option R) : Store * option R :=
  match groups with
  | [] => (st, current_lr)
  | group :: rest =>
      let '(st', current_lr') :=
        decay_params group (params group) st current_lr in
      decay_groups rest st' current_lr'
  end.

Definition adam_weight_decay (optimizer : Optimizer) (st : Store)
  : result (Optimizer * R) * Store :=
  let '(st', current_lr) := decay_groups optimizer st None in
  (match current_lr with
   | Some current_lr => Ok (optimizer, current_lr)
   | None => Raise UnboundLocalError
   end, st').




(** A two-group optimizer and a store used to exercise the decay step. *)
Definition demo_optimizer : Optimizer :=
  [ {| params := [mkParam 0 [2%nat] true; mkParam 1 [1%nat] true];
       lr := 0.5; weight_decay := 0.5 |};
    {| params := [mkParam 2 [1%nat] true]; lr := 0.25; weight_decay := 0 |} ].

Definition demo_store : Store :=
  fun i => {| data := [4; 8]; grad := [1; 1] |}.

End AdamDecay.

(** ** [check_update] *)

Module GradCheck.
Import Torch.

(** What [clip_grad_norm_] returns: a Python float in older releases of
    the framework, a zero-dimensional tensor in newer ones. *)
Inductive GradNorm : Type :=
| FloatNorm (v : spec_float)
| TensorNorm (v : spec_float).

Definition norm_value (n : GradNorm) : spec_float :=
  match n with
  | FloatNorm v => v
  | TensorNorm v => v
  end.

(** [np.isinf] on a float and the truth value of [torch.isinf] on a
    zero-dimensional tensor. *)
Definition np_isinf (v : spec_float) : bool :=
  match v with
  | S754_infinity _ => true
  | _ => false
  end.

Definition torch_isinf (v : spec_float) : bool :=
  match v with
  | S754_infinity _ => true
  | _ => false
  end.

(** [not amp_opt_params]: [None] and the empty list are falsy. *)
Definition not_ (amp_opt_params : option (list Param)) : bool :=
  match amp_opt_params with
  | None | Some [] => true
  | Some (_ :: _) => false
  end.

Definition params_of (amp_opt_params : option (list Param)) : list Param :=
  match amp_opt_params with
  | Some ps => ps
  | None => []
  end.

Section WithClip.

(** [torch.nn.utils.clip_grad_norm_]: given the selected parameters
    and the threshold it rescales their gradients in place and returns
    the norm; only the returned norm matters below. *)
Variable clip_grad_norm_ : list Param -> spec_float -> GradNorm.

Definition check_update (model : Model) (grad_clip : spec_float)
           (ignore_stopnet : bool)
           (amp_opt_params : option (list Param)) : GradNorm * bool :=
  let skip_flag := false in
  let grad_norm :=
    if ignore_stopnet then
      if not_ amp_opt_params then
        clip_grad_norm_
          (map snd (filter (fun np =>
                              negb (contains "stopnet" (fst np)))
                           model))
          grad_clip
      else clip_grad_norm_ (params_of amp_opt_params) grad_clip
    else
      if not_ amp_opt_params then
        clip_grad_norm_ (parameters model) grad_clip
      else clip_grad_norm_ (params_of amp_opt_params) grad_clip in
  let skip_flag :=
    match grad_norm with
    | FloatNorm v => if np_isinf v then true else skip_flag
    | TensorNorm v => if torch_isinf v then true else skip_flag
    end in
  (grad_norm, skip_flag).

End WithClip.

(** The norm is NaN or infinite. *)
Definition non_finite (v : spec_float) : Prop :=
  v = S754_nan \/ exists sign, v = S754_infinity sign.

(** The norm is infinite, of either sign. *)
Definition infinite (v : spec_float) : Prop :=
  exists sign, v = S754_infinity sign.

(** A clip primitive of the older kind and one of the newer kind, each
    reporting the norm [v]. *)
Definition float_clip (v : spec_float)
  : list Param -> spec_float -> GradNorm := fun _ _ => FloatNorm v.

Definition tensor_clip (v : spec_float)
  : list Param -> spec_float -> GradNorm := fun _ _ => TensorNorm v.

End GradCheck.

(** ** The two selections made by [set_weight_decay] *)

Module Selection.
Import Torch WeightDecay.

(** An entry of the listing that the loop appends to [no_decay]. *)
Definition to_no_decay (skip_list : list string) (np : string * Param)
  : bool :=
  (eligible (fst np) (snd np)
   && skips_decay skip_list (fst np) (snd np))%bool.

(** An entry of the listing that the loop appends to [decay]. *)
Definition to_decay (skip_list : list string) (np : string * Param)
  : bool :=
  (eligible (fst np) (snd np)
   && negb (skips_decay skip_list (fst np) (snd np)))%bool.

End Selection.

(** ** The cumulated effect of the decay step on one tensor *)

Module DecayLaw.
Import Torch AdamDecay.
Local Open Scope R_scope.

(** The product of the factors applied to the tensor of identity [i] by
    one pass over the parameters [ps] of a group: [factor] for each
    occurrence of [i]. *)
Fixpoint visits_factor (i : nat) (factor : R) (ps : list Param) : R :=
  match ps with
  | [] => 1
  | p :: rest =>
      (if Nat.eqb (param_id p) i then factor else 1)
      * visits_factor i factor rest
  end.

(** The same over all groups, each with its own factor
    [1 - lr * weight_decay]. *)
Fixpoint total_factor (optimizer : Optimizer) (i : nat) : R :=
  match optimizer with
  | [] => 1
  | g :: rest =>
      visits_factor i (1 - lr g * weight_decay g) (params g)
      * total_factor rest i
  end.

End DecayLaw.

(** ** Properties of [gradual_training_scheduler] *)

Module GradualFacts.
Import Gradual.

Lemma scan_app scaled acc l1 l2 :
  scan scaled acc (l1 ++ l2) = scan scaled (scan scaled acc l1) l2.
Proof.
  revert acc; induction l1 as [|v l1 IH]; intros acc; simpl.
  - reflexivity.
  - destruct (scaled >=? step_threshold v)%Z; apply IH.
Qed.

Lemma scan_none_reached scaled acc l :
  Forall (fun e' => (scaled < step_threshold e')%Z) l ->
  scan scaled acc l = acc.
Proof.
  induction 1 as [|v l Hv _ IH]; simpl.
  - reflexivity.
  - destruct (Z.geb_spec scaled (step_threshold v)); [lia | exact IH].
Qed.

Lemma scan_last scaled acc config e :
  last_qualifying scaled config e -> scan scaled acc config = Some e.
Proof.
  intros (pre & post & -> & Hle & Hpost).
  rewrite scan_app; simpl.
  destruct (Z.geb_spec scaled (step_threshold e)); [|lia].
  now apply scan_none_reached.
Qed.

(** When some entry qualifies there is a last one. *)
Lemma last_qualifying_exists scaled config :
  Exists (fun e => (step_threshold e <= scaled)%Z) config ->
  exists e, last_qualifying scaled config e.
Proof.
  induction config as [|v l IH]; intros Hex.
  - inversion Hex.
  - destruct (Exists_dec (fun e => (step_threshold e <= scaled)%Z) l) as [Hl|Hl].
    + intros e; destruct (Z_le_dec (step_threshold e) scaled); [now left | now right].
    + destruct (IH Hl) as (e & pre & post & -> & Hle & Hpost).
      exists e, (v :: pre), post; repeat split; assumption.
    + inversion Hex as [? ? Hv | ? ? Hin]; [|contradiction]; subst.
      exists v, [], l; repeat split; try assumption.
      apply Forall_forall; intros e' He'.
      destruct (Z_lt_dec scaled (step_threshold e')) as [|Hn]; [assumption|].
      exfalso; apply Hl, Exists_exists; exists e'; split; [assumption | lia].
Qed.

Lemma num_gpus_max device_count :
  (if Nat.eqb device_count 0 then 1%nat else device_count)
  = Nat.max device_count 1.
Proof. destruct device_count as [|[|n]]; reflexivity. Qed.

Lemma strictly_increasing_before pre e post :
  strictly_increasing (pre ++ e :: post) ->
  Forall (fun e' => (step_threshold e' < step_threshold e)%Z) pre.
Proof.
  induction pre as [|a pre IH]; intros Hinc; [constructor|].
  destruct Hinc as [Hhead Hrest]; specialize (IH Hrest).
  constructor; [|exact IH].
  destruct pre as [|a' pre']; simpl in Hhead; [exact Hhead|].
  inversion IH; subst; lia.
Qed.

(** C2. With strictly increasing thresholds the selector returns the
    batch size and accumulation steps of the last entry whose threshold
    is at most [global_step * max(device_count, 1)]; that entry has the
    greatest threshold among the qualifying ones, and it exists as soon
    as one entry qualifies.  On the worked example with one device the
    selector returns (32,1) at step 500, (16,2) at step 1500 and (8,4) at
    step 5000. *)
Theorem gradual_training_scheduler_selects_last
        (device_count : nat) (global_step : Z) (config : list Entry)
        (Hinc : strictly_increasing config) :
  let scaled := (global_step * Z.of_nat (Nat.max device_count 1))%Z in
  (forall e, last_qualifying scaled config e ->
             gradual_training_scheduler device_count global_step config
             = Ok (batch_size e, grad_accum_steps e) /\
             forall e', In e' config ->
                        (step_threshold e' <= scaled)%Z ->
                        (step_threshold e' <= step_threshold e)%Z) /\
  (Exists (fun e => (step_threshold e <= scaled)%Z) config ->
   exists e, last_qualifying scaled config e) /\
  gradual_training_scheduler 1 500 demo_config = Ok (32, 1)%Z /\
  gradual_training_scheduler 1 1500 demo_config = Ok (16, 2)%Z /\
  gradual_training_scheduler 1 5000 demo_config = Ok (8, 4)%Z.
Proof.
  intros scaled; split; [|split; [|repeat split]].
  - intros e Hlast; split.
    + unfold gradual_training_scheduler.
      rewrite num_gpus_max; fold scaled.
      now rewrite (scan_last None Hlast).
    + destruct Hlast as (pre & post & -> & Hle & Hpost).
      intros e' Hin He'.
      apply in_app_or in Hin as [Hpre | [<- | Hafter]].
      * pose proof (strictly_increasing_before _ _ _ Hinc) as Hb.
        rewrite Forall_forall in Hb; specialize (Hb _ Hpre); lia.
      * lia.
      * rewrite Forall_forall in Hpost; specialize (Hpost _ Hafter); lia.
  - apply last_qualifying_exists.
Qed.

Lemma gradual_training_scheduler_selects_last_witness :
  strictly_increasing demo_config /\
  gradual_training_scheduler 0 1500 demo_config = Ok (16, 2)%Z.
Proof.
  assert (H : strictly_increasing demo_config) by (simpl; lia).
  split; [exact H|].
  refine (proj1 (proj1 (@gradual_training_scheduler_selects_last 0 1500 _ H)
                       (mkEntry 1000 16 2) _)).
  exists [mkEntry 0 32 1], [mkEntry 2000 8 4]; repeat split.
  - simpl; lia.
  - repeat constructor.
Defined.

(** C8, as stated, fails: with no qualifying entry the selection stays
    [None] and the failure is the [TypeError] of subscripting it. *)
Lemma gradual_training_scheduler_none_counterexample :
  scan (0 * Z.of_nat 1) None [mkEntry 1000 16 2] = None /\
  gradual_training_scheduler 1 0 [mkEntry 1000 16 2] = Raise TypeError.
Proof. split; reflexivity. Qed.

(** C8, amended. When no entry's threshold is at most
    [global_step * max(device_count, 1)], the selector fails with the
    [TypeError] raised by subscripting the absent ([None]) selection. *)
Theorem gradual_training_scheduler_none_raises
        (device_count : nat) (global_step : Z) (config : list Entry)
        (Hnone : Forall (fun e =>
                   (global_step * Z.of_nat (Nat.max device_count 1)
                    < step_threshold e)%Z) config) :
  gradual_training_scheduler device_count global_step config
  = Raise TypeError.
Proof.
  unfold gradual_training_scheduler.
  rewrite num_gpus_max, (scan_none_reached None Hnone).
  reflexivity.
Qed.

Lemma gradual_training_scheduler_none_raises_witness :
  gradual_training_scheduler 2 499 [mkEntry 1000 16 2; mkEntry 2000 8 4]
  = Raise TypeError.
Proof.
  apply gradual_training_scheduler_none_raises.
  repeat constructor; simpl; lia.
Defined.

End GradualFacts.

(** ** Properties of [StepwiseGradualLR.get_lr] *)

Module StepwiseFacts.
Import Stepwise.

Lemma where_false_from_all_true i thresholds step :
  Forall (fun t => (t < step)%Z) thresholds ->
  Np.where_false_from i (Np.less thresholds step) = [].
Proof.
  intros H; revert i; induction H as [|t l Ht _ IH]; intros i; simpl.
  - reflexivity.
  - destruct (Z.ltb_spec t step); [apply IH | lia].
Qed.

(** Once every threshold is below the step, [first_false] stays the
    empty array and the reduction [np.max(first_false - 1, 0)] raises. *)
Lemma get_lr_above_all_thresholds self :
  Forall (fun t => (t < Z.max (last_epoch self) 1)%Z)
         (map fst (gradual_learning_rates self)) ->
  get_lr self = Raise ValueError.
Proof.
  intros H; unfold get_lr, Np.where_false.
  rewrite (where_false_from_all_true 0 H); reflexivity.
Qed.

Lemma get_lr_single_pair_not_below t r last lrs :
  (Z.max last 1 <= t)%Z ->
  get_lr (mkStepwise [(t, r)] last lrs) = Raise IndexError.
Proof.
  intros H; unfold get_lr; cbn [gradual_learning_rates last_epoch map fst snd].
  unfold Np.where_false, Np.less; cbn [map Np.where_false_from].
  destruct (Z.ltb_spec t (Z.max last 1)); [lia|].
  cbn.
  destruct (Z.gtb_spec (Z.max last 1) t); [lia | reflexivity].
Qed.

(** C3. On the worked example the rate is 0.1 at step 50 and 0.01 at
    step 150, each repeated once per parameter group; at step 300 the
    call raises [ValueError] and returns no rate. *)
Theorem stepwise_get_lr_worked_example (lrs : list float) :
  get_lr (mkStepwise demo_rates 50 lrs)
  = Ok (repeat rate_initial (List.length lrs)) /\
  get_lr (mkStepwise demo_rates 150 lrs)
  = Ok (repeat rate_middle (List.length lrs)) /\
  get_lr (mkStepwise demo_rates 300 lrs) = Raise ValueError.
Proof. repeat split. Qed.

(** C7, as stated, fails: a single pair whose threshold the step has not
    passed ends in the index-out-of-range fault of
    [step_thresholds[1]]. *)
Lemma stepwise_get_lr_short_config_counterexample :
  get_lr (mkStepwise [(5%Z, rate_initial)] 1 [rate_initial])
  = Raise IndexError.
Proof. reflexivity. Qed.

(** C7, amended. With fewer than two threshold/rate pairs [get_lr]
    returns no rate: it always raises, and for a single pair whose
    threshold is not below the step the exception is [IndexError]. *)
Theorem stepwise_get_lr_short_config (self : StepwiseGradualLR)
        (Hshort : (List.length (gradual_learning_rates self) < 2)%nat) :
  (exists e, get_lr self = Raise e) /\
  (forall t r, gradual_learning_rates self = [(t, r)] ->
               (Z.max (last_epoch self) 1 <= t)%Z ->
               get_lr self = Raise IndexError).
Proof.
  destruct self as [cfg last lrs]; cbn [gradual_learning_rates last_epoch] in *.
  destruct cfg as [|[t r] [|? ?]]; cbn [List.length] in Hshort; try lia.
  - split.
    + exists ValueError; now apply get_lr_above_all_thresholds; constructor.
    + discriminate.
  - split.
    + destruct (Z_lt_dec t (Z.max last 1)) as [Hlt|Hge].
      * exists ValueError; apply get_lr_above_all_thresholds.
        now repeat constructor.
      * exists IndexError; apply get_lr_single_pair_not_below; lia.
    + intros t' r' [= <- <-] Hle.
      now apply get_lr_single_pair_not_below.
Qed.

Lemma stepwise_get_lr_short_config_witness :
  exists e, get_lr (mkStepwise [(0%Z, rate_initial)] 7 [rate_initial])
            = Raise e.
Proof.
  apply (@stepwise_get_lr_short_config
           (mkStepwise [(0%Z, rate_initial)] 7 [rate_initial])).
  simpl; lia.
Defined.

End StepwiseFacts.

(** ** Properties of [lr_decay] and [NoamLR.get_lr] *)

Module WarmupFacts.
Import Warmup.
Local Open Scope R_scope.

Lemma Rpower_pos x y : 0 < Rpower x y.
Proof. unfold Rpower; apply exp_pos. Qed.

Lemma Rpower_cancel w : 0 < w -> Rpower w 1.5 * Rpower w (-1.5) = 1.
Proof.
  intros Hw; rewrite <- Rpower_plus.
  replace (1.5 + -1.5) with 0 by lra.
  now apply Rpower_O.
Qed.

Lemma Rpower_split s : 0 < s -> s = Rpower s 1.5 * Rpower s (-0.5).
Proof.
  intros Hs; rewrite <- Rpower_plus.
  replace (1.5 + -0.5) with 1 by lra.
  symmetry; now apply Rpower_1.
Qed.

(** Up to the end of the warm-up the linear branch is the smaller one. *)
Lemma linear_branch_le s w :
  0 < s -> s <= w -> s * Rpower w (-1.5) <= Rpower s (-0.5).
Proof.
  intros Hs Hsw.
  assert (Hw : 0 < w) by lra.
  assert (Ha : Rpower s 1.5 <= Rpower w 1.5)
    by (apply Rle_Rpower_l; lra).
  pose proof (Rpower_cancel Hw) as Hc.
  pose proof (Rpower_split Hs) as Hsplit.
  pose proof (Rpower_pos s 1.5) as Ha0.
  pose proof (Rpower_pos s (-0.5)) as Hb0.
  pose proof (Rpower_pos w 1.5) as Hc0.
  pose proof (Rpower_pos w (-1.5)) as Hd0.
  rewrite Hsplit at 1.
  set (a := Rpower s 1.5) in *; set (b := Rpower s (-0.5)) in *.
  set (c := Rpower w 1.5) in *; set (d := Rpower w (-1.5)) in *.
  assert (Hbd : 0 < b * d) by (apply Rmult_lt_0_compat; assumption).
  replace b with (c * (b * d)) at 2 by (rewrite <- (Rmult_1_l b) at 2; rewrite <- Hc; ring).
  replace (a * b * d) with (a * (b * d)) by ring.
  apply Rmult_le_compat_r; lra.
Qed.

(** From the end of the warm-up on, the inverse square root is. *)
Lemma decay_branch_le s w :
  0 < w -> w <= s -> Rpower s (-0.5) <= s * Rpower w (-1.5).
Proof.
  intros Hw Hws.
  assert (Hs : 0 < s) by lra.
  assert (Ha : Rpower w 1.5 <= Rpower s 1.5)
    by (apply Rle_Rpower_l; lra).
  pose proof (Rpower_cancel Hw) as Hc.
  pose proof (Rpower_split Hs) as Hsplit.
  pose proof (Rpower_pos s (-0.5)) as Hb0.
  pose proof (Rpower_pos w (-1.5)) as Hd0.
  rewrite Hsplit at 2.
  set (a := Rpower s 1.5) in *; set (b := Rpower s (-0.5)) in *.
  set (c := Rpower w 1.5) in *; set (d := Rpower w (-1.5)) in *.
  assert (Hbd : 0 < b * d) by (apply Rmult_lt_0_compat; assumption).
  replace b with (c * (b * d)) at 1 by (rewrite <- (Rmult_1_l b) at 2; rewrite <- Hc; ring).
  replace (a * b * d) with (a * (b * d)) by ring.
  apply Rmult_le_compat_r; lra.
Qed.

Lemma lr_decay_warming init_lr g w :
  (0 <= g)%Z -> IZR g + 1 <= float w ->
  lr_decay init_lr g w
  = init_lr * Rpower (float w) 0.5 * ((IZR g + 1) * Rpower (float w) (-1.5)).
Proof.
  intros Hg Hle; unfold lr_decay, np_minimum.
  assert (0 <= IZR g) by now apply IZR_le.
  rewrite Rmin_left; [reflexivity | apply linear_branch_le; lra].
Qed.

Lemma lr_decay_decaying init_lr g w :
  0 < float w -> float w <= IZR g + 1 ->
  lr_decay init_lr g w
  = init_lr * Rpower (float w) 0.5 * Rpower (IZR g + 1) (-0.5).
Proof.
  intros Hw Hle; unfold lr_decay, np_minimum.
  rewrite Rmin_right; [reflexivity | now apply decay_branch_le].
Qed.

Lemma inverse_sqrt_decreasing s1 s2 :
  0 < s1 -> s1 < s2 -> Rpower s2 (-0.5) < Rpower s1 (-0.5).
Proof.
  intros H1 H12.
  replace (-0.5) with (Ropp 0.5) by lra.
  rewrite !Rpower_Ropp.
  apply Rinv_lt_contravar.
  - apply Rmult_lt_0_compat; apply Rpower_pos.
  - apply Rlt_Rpower_l; lra.
Qed.

(** C5. For [global_step >= 0] and [warmup_steps > 0], [lr_decay]
    returns [init_lr * warmup_steps^0.5 *
    min(step * warmup_steps^-1.5, step^-0.5)] with
    [step = global_step + 1]. *)
Theorem lr_decay_formula (init_lr : R) (global_step : Z) (w : number)
        (Hstep : (0 <= global_step)%Z) (Hw : 0 < float w) :
  lr_decay init_lr global_step w
  = warmup_rate init_lr (global_step + 1) (float w).
Proof.
  unfold lr_decay, warmup_rate, np_minimum.
  now rewrite plus_IZR.
Qed.

Lemma lr_decay_formula_witness :
  lr_decay 0.001 9 (PyInt 4000) = warmup_rate 0.001 (9 + 1) (IZR 4000).
Proof.
  apply (@lr_decay_formula 0.001 9 (PyInt 4000)).
  - lia.
  - simpl; lra.
Defined.

(** C6. For positive [init_lr] and [warmup_steps > 1], [lr_decay] is
    strictly increasing in the step while [step <= warmup_steps] and
    strictly decreasing in the step once [step >= warmup_steps], where
    [step = global_step + 1]. *)
Theorem lr_decay_monotone (init_lr : R) (w : number)
        (Hinit : 0 < init_lr) (Hw : 1 < float w) :
  (forall g1 g2 : Z,
      (0 <= g1 < g2)%Z -> IZR g2 + 1 <= float w ->
      lr_decay init_lr g1 w < lr_decay init_lr g2 w) /\
  (forall g1 g2 : Z,
      (g1 < g2)%Z -> float w <= IZR g1 + 1 ->
      lr_decay init_lr g2 w < lr_decay init_lr g1 w).
Proof.
  assert (Hc : 0 < init_lr * Rpower (float w) 0.5)
    by (apply Rmult_lt_0_compat; [assumption | apply Rpower_pos]).
  split; intros g1 g2 Hg Hb.
  - assert (H12 : IZR g1 < IZR g2) by (apply IZR_lt; lia).
    rewrite !lr_decay_warming by (try lia; lra).
    apply Rmult_lt_compat_l; [assumption|].
    apply Rmult_lt_compat_r; [apply Rpower_pos | lra].
  - assert (H12 : IZR g1 < IZR g2) by (apply IZR_lt; lia).
    rewrite !lr_decay_decaying by lra.
    apply Rmult_lt_compat_l; [assumption|].
    apply inverse_sqrt_decreasing; lra.
Qed.

Lemma lr_decay_monotone_witness :
  lr_decay 1 0 (PyInt 4) < lr_decay 1 2 (PyInt 4) /\
  lr_decay 1 9 (PyInt 4) < lr_decay 1 5 (PyInt 4).
Proof.
  assert (Hinit : 0 < 1) by lra.
  assert (Hw : 1 < float (PyInt 4)) by (simpl; lra).
  destruct (@lr_decay_monotone 1 (PyInt 4) Hinit Hw) as [Hup Hdown].
  split.
  - apply Hup; [lia | simpl; lra].
  - apply Hdown; [lia | simpl; lra].
Defined.

(** C9. For [warmup_steps > 0] and [last_epoch >= 1], every rate
    returned by [NoamLR.get_lr] is [lr_decay] of the corresponding base
    rate at [global_step = last_epoch - 1]. *)
Theorem noam_get_lr_is_lr_decay (self : NoamLR)
        (Hw : 0 < warmup_steps self) (Hepoch : (1 <= last_epoch self)%Z) :
  get_lr self
  = map (fun base_lr =>
           lr_decay base_lr (last_epoch self - 1)
                    (PyFloat (warmup_steps self)))
        (base_lrs self).
Proof.
  unfold get_lr, lr_decay, np_minimum; cbn [float].
  rewrite Z.max_l by lia.
  apply map_ext; intros base_lr.
  rewrite minus_IZR.
  replace (IZR (last_epoch self) - 1 + 1) with (IZR (last_epoch self))
    by ring.
  reflexivity.
Qed.

Lemma noam_get_lr_is_lr_decay_witness :
  get_lr (mkNoam 4000 10 [0.001; 0.01])
  = [lr_decay 0.001 9 (PyFloat 4000); lr_decay 0.01 9 (PyFloat 4000)].
Proof.
  apply (@noam_get_lr_is_lr_decay (mkNoam 4000 10 [0.001; 0.01])).
  - simpl; lra.
  - simpl; lia.
Defined.

End WarmupFacts.

(** ** Properties of [set_weight_decay] *)

Module WeightDecayFacts.
Import Torch WeightDecay.

Lemma prefix_spec sub s :
  String.prefix sub s = true <-> exists post, s = (sub ++ post)%string.
Proof.
  revert s; induction sub as [|a sub IH]; intros s.
  - split; [intros _; now exists s | intros _; now destruct s].
  - destruct s as [|b s]; simpl.
    + split; [discriminate | intros [post H]; discriminate].
    + destruct (Ascii.ascii_dec a b) as [->|Hne].
      * rewrite IH; split; intros [post H]; exists post.
        -- now rewrite H.
        -- now injection H.
      * split; [discriminate | intros [post H]; congruence].
Qed.

Lemma contains_spec sub s :
  contains sub s = true <-> is_substring sub s.
Proof.
  induction s as [|b s IH]; cbn [contains]; rewrite orb_true_iff, prefix_spec.
  - split.
    + intros [[post H] | H]; [|discriminate].
      exists EmptyString, post; exact H.
    + intros ([|? ?] & post & H); [|discriminate].
      left; now exists post.
  - rewrite IH; split.
    + intros [[post H] | (pre & post & H)].
      * exists EmptyString, post; exact H.
      * exists (String b pre), post; simpl; now rewrite H.
    + intros ([|c pre] & post & H).
      * left; now exists post.
      * right; exists pre, post; simpl in H; congruence.
Qed.

Lemma skips_decay_spec skip_list name param :
  skips_decay skip_list name param = true <-> exempt skip_list name param.
Proof.
  unfold skips_decay, exempt.
  rewrite orb_true_iff, Nat.eqb_eq, existsb_exists.
  split; (intros [H | (x & Hin & Hc)]; [now left | right; exists x]);
    (split; [assumption | now apply contains_spec]).
Qed.

(** The loop computes two filters of the parameter listing. *)
Lemma partition_loop_filter skip_list model decay no_decay :
  partition_loop skip_list model decay no_decay
  = (decay ++ map snd (filter (fun np =>
                         eligible (fst np) (snd np)
                         && negb (skips_decay skip_list (fst np) (snd np)))%bool
                       model),
     no_decay ++ map snd (filter (fun np =>
                         eligible (fst np) (snd np)
                         && skips_decay skip_list (fst np) (snd np))%bool
                       model)).
Proof.
  revert decay no_decay; induction model as [|[name param] rest IH];
    intros decay no_decay; simpl.
  - now rewrite !app_nil_r.
  - unfold eligible; simpl.
    destruct (String.eqb name reserved_name); simpl; [apply IH|].
    destruct (requires_grad param); simpl; [|apply IH].
    destruct (skips_decay skip_list name param); simpl;
      rewrite IH, <- ?app_assoc; reflexivity.
Qed.

Lemma in_model_same_param (model : Model) name name' param :
  NoDup (map param_id (parameters model)) ->
  In (name, param) model -> In (name', param) model -> name = name'.
Proof.
  unfold parameters; induction model as [|[n p] rest IH]; simpl; [tauto|].
  intros Hnd; inversion Hnd as [|? ? Hnotin Hnd']; subst.
  assert (Hfresh : forall m, In (m, p) rest -> False).
  { intros m Hin; apply Hnotin.
    rewrite map_map; apply in_map_iff; now exists (m, p). }
  intros [H1 | H1] [H2 | H2].
  - congruence.
  - injection H1 as <- <-; destruct (Hfresh _ H2).
  - injection H2 as <- <-; destruct (Hfresh _ H1).
  - now apply IH.
Qed.

Lemma in_filtered (f : string * Param -> bool) (model : Model) param :
  In param (map snd (filter f model)) <->
  exists name, In (name, param) model /\ f (name, param) = true.
Proof.
  rewrite in_map_iff; split.
  - intros ([name p] & <- & Hf); apply filter_In in Hf.
    now exists name.
  - intros (name & Hin & Hf); exists (name, param); split; [reflexivity|].
    now apply filter_In.
Qed.

Lemma eligible_spec name param :
  eligible name param = true <->
  name <> reserved_name /\ requires_grad param = true.
Proof.
  unfold eligible.
  now rewrite andb_true_iff, negb_true_iff, String.eqb_neq.
Qed.

(** C4. [set_weight_decay] returns the no-decay group with coefficient 0
    followed by the decay group with the given coefficient.  Every
    parameter that is not named ['capacitron_layer.beta'] and has
    gradients enabled lies in the no-decay group and not in the decay
    group when it has rank 1 or its name contains an excluded substring,
    and in the decay group and not in the no-decay group otherwise.  The
    parameter listing holds each parameter object once. *)
Theorem set_weight_decay_partition
        (model : Model) (coefficient : R) (skip_list : list string)
        (Hdistinct : NoDup (map param_id (parameters model))) :
  exists no_decay decay,
    set_weight_decay model coefficient skip_list
    = [ {| params := no_decay; weight_decay := 0%R |};
        {| params := decay; weight_decay := coefficient |} ] /\
    forall name param,
      In (name, param) model ->
      name <> reserved_name -> requires_grad param = true ->
      (exempt skip_list name param ->
       In param no_decay /\ ~ In param decay) /\
      (~ exempt skip_list name param ->
       In param decay /\ ~ In param no_decay).
Proof.
  unfold set_weight_decay; rewrite partition_loop_filter; cbn [app].
  eexists _, _; split; [reflexivity|].
  intros name param Hin Hname Hgrad.
  assert (Hel : eligible name param = true) by now apply eligible_spec.
  split; intros Hex.
  - apply skips_decay_spec in Hex; split.
    + apply in_filtered; exists name; split; [assumption|]; cbn.
      now rewrite Hel, Hex.
    + intros (name' & Hin' & Hf)%in_filtered; cbn in Hf.
      rewrite (@in_model_same_param _ _ _ _ Hdistinct Hin' Hin), Hex in Hf.
      now destruct (eligible name param).
  - assert (Hs : skips_decay skip_list name param = false).
    { destruct (skips_decay skip_list name param) eqn:E; [|reflexivity].
      now apply skips_decay_spec in E. }
    split.
    + apply in_filtered; exists name; split; [assumption|]; cbn.
      now rewrite Hel, Hs.
    + intros (name' & Hin' & Hf)%in_filtered; cbn in Hf.
      rewrite (@in_model_same_param _ _ _ _ Hdistinct Hin' Hin), Hs in Hf.
      now destruct (eligible name param).
Qed.

Lemma set_weight_decay_partition_witness :
  exists no_decay decay,
    set_weight_decay demo_model 0.000001%R default_skip_list
    = [ {| params := no_decay; weight_decay := 0%R |};
        {| params := decay; weight_decay := 0.000001%R |} ] /\
    In demo_bias no_decay /\ ~ In demo_bias decay.
Proof.
  destruct (@set_weight_decay_partition demo_model 0.000001%R
                                        default_skip_list)
    as (no_decay & decay & Heq & Hmem).
  - simpl; repeat constructor; simpl; intuition lia.
  - exists no_decay, decay; split; [exact Heq|].
    apply (Hmem "decoder.linear.bias"%string demo_bias).
    + simpl; tauto.
    + discriminate.
    + reflexivity.
    + left; reflexivity.
Defined.

End WeightDecayFacts.

(** ** Properties of [adam_weight_decay] *)

Module AdamDecayFacts.
Import Torch AdamDecay.
Local Open Scope R_scope.

Lemma add_alpha_self d alpha :
  add_alpha d d alpha = map (fun x => x + alpha * x) d.
Proof.
  unfold add_alpha; induction d as [|x d IH]; simpl; [reflexivity|].
  now rewrite IH.
Qed.
















End AdamDecayFacts.

(** ** Properties of [check_update] *)

Module GradCheckFacts.
Import Torch GradCheck.

Lemma isinf_spec v : np_isinf v = true <-> infinite v.
Proof.
  unfold infinite; destruct v; simpl; split;
    try discriminate; try (intros [sign H]; discriminate); eauto.
Qed.

Lemma torch_isinf_spec v : torch_isinf v = true <-> infinite v.
Proof. exact (isinf_spec v). Qed.

(** C1, as stated, fails: a NaN norm is non-finite and yet the flag stays
    [False], on the float path and on the tensor path alike. *)
Lemma check_update_nan_counterexample :
  let by_float :=
    check_update (float_clip S754_nan) [] (S754_zero false) false None in
  let by_tensor :=
    check_update (tensor_clip S754_nan) [] (S754_zero false) false None in
  ~ (snd by_float = true <-> non_finite (norm_value (fst by_float))) /\
  ~ (snd by_tensor = true <-> non_finite (norm_value (fst by_tensor))).
Proof.
  split; intros [_ H]; cbn in H;
    (assert (Hflag : false = true) by (apply H; now left));
    discriminate Hflag.
Qed.

(** C1, amended. Whatever the clip primitive, the model, the threshold
    and the parameter selection, the flag returned by [check_update] is
    [True] exactly when the norm returned by the primitive is infinite,
    whether that norm is a float or a tensor; the returned norm is the
    primitive's, and a NaN norm leaves the flag [False]. *)
Theorem check_update_flags_infinite
        (clip_grad_norm_ : list Param -> spec_float -> GradNorm)
        (model : Model) (grad_clip : spec_float) (ignore_stopnet : bool)
        (amp_opt_params : option (list Param)) :
  let r := check_update clip_grad_norm_ model grad_clip ignore_stopnet
                        amp_opt_params in
  (snd r = true <-> infinite (norm_value (fst r))) /\
  (norm_value (fst r) = S754_nan -> snd r = false) /\
  (exists selected, fst r = clip_grad_norm_ selected grad_clip).
Proof.
  unfold check_update; cbn zeta.
  set (grad_norm := if ignore_stopnet then _ else _).
  assert (Hsel : exists selected,
             grad_norm = clip_grad_norm_ selected grad_clip).
  { unfold grad_norm.
    destruct ignore_stopnet, (not_ amp_opt_params); eexists; reflexivity. }
  clearbody grad_norm; cbn [fst snd].
  destruct grad_norm as [v | v]; cbn [norm_value]; repeat split;
    try assumption.
  - destruct (np_isinf v) eqn:E; [intros _; now apply isinf_spec|discriminate].
  - intros H; apply isinf_spec in H; now rewrite H.
  - intros ->; reflexivity.
  - destruct (torch_isinf v) eqn:E;
      [intros _; now apply torch_isinf_spec|discriminate].
  - intros H; apply torch_isinf_spec in H; now rewrite H.
  - intros ->; reflexivity.
Qed.

Lemma check_update_flags_infinite_witness :
  snd (check_update (tensor_clip (S754_infinity false)) []
                    (S754_zero false) true None) = true.
Proof.
  apply (proj1 (@check_update_flags_infinite
                  (tensor_clip (S754_infinity false)) []
                  (S754_zero false) true None)).
  now exists false.
Defined.

End GradCheckFacts.

(** ** Further properties of [gradual_training_scheduler] *)

Module GradualMore.
Import Gradual GradualFacts.

(** What the loop can end with: the last qualifying entry, or the value
    it started from when no entry qualifies. *)
Lemma scan_result scaled acc config :
  (exists e, scan scaled acc config = Some e /\
             last_qualifying scaled config e) \/
  (scan scaled acc config = acc /\
   Forall (fun e' => (scaled < step_threshold e')%Z) config).
Proof.
  revert acc; induction config as [|v rest IH]; intros acc; simpl.
  - right; split; [reflexivity | constructor].
  - destruct (Z.geb_spec scaled (step_threshold v)) as [Hge | Hlt].
    + left; destruct (IH (Some v)) as [(e & He & pre & post & -> & Hle & Hpost)
                                      | [He Hall]].
      * exists e; split; [exact He|].
        exists (v :: pre), post; repeat split; assumption.
      * exists v; split; [exact He|].
        exists [], rest; repeat split; [lia | assumption].
    + destruct (IH acc) as [(e & He & pre & post & -> & Hle & Hpost)
                           | [He Hall]].
      * left; exists e; split; [exact He|].
        exists (v :: pre), post; repeat split; assumption.
      * right; split; [exact He | constructor; [lia | assumption]].
Qed.

Lemma last_qualifying_greatest scaled config e :
  strictly_increasing config -> last_qualifying scaled config e ->
  forall e', In e' config -> (step_threshold e' <= scaled)%Z ->
             (step_threshold e' <= step_threshold e)%Z.
Proof.
  intros Hinc (pre & post & -> & Hle & Hpost) e' Hin He'.
  apply in_app_or in Hin as [Hpre | [<- | Hafter]].
  - pose proof (strictly_increasing_before _ _ _ Hinc) as Hb.
    rewrite Forall_forall in Hb; specialize (Hb _ Hpre); lia.
  - lia.
  - rewrite Forall_forall in Hpost; specialize (Hpost _ Hafter); lia.
Qed.

Lemma last_qualifying_in scaled config e :
  last_qualifying scaled config e ->
  In e config /\ (step_threshold e <= scaled)%Z.
Proof.
  intros (pre & post & -> & Hle & _); split; [|exact Hle].
  apply in_or_app; right; now left.
Qed.

(** X1. The selector returns a pair exactly when some entry's threshold
    is at most [global_step * max(device_count, 1)]; otherwise it raises
    [TypeError]. *)
Theorem gradual_training_scheduler_returns_iff
        (device_count : nat) (global_step : Z) (config : list Entry) :
  let scaled := (global_step * Z.of_nat (Nat.max device_count 1))%Z in
  ((exists b g, gradual_training_scheduler device_count global_step config
                = Ok (b, g)) <->
   Exists (fun e => (step_threshold e <= scaled)%Z) config) /\
  (~ Exists (fun e => (step_threshold e <= scaled)%Z) config ->
   gradual_training_scheduler device_count global_step config
   = Raise TypeError).
Proof.
  intros scaled; unfold gradual_training_scheduler.
  rewrite num_gpus_max; fold scaled.
  destruct (scan_result scaled None config)
    as [(e & -> & Hlast) | [-> Hall]]; cbn.
  - apply last_qualifying_in in Hlast as [Hin Hle].
    assert (Hex : Exists (fun e => (step_threshold e <= scaled)%Z) config)
      by (apply Exists_exists; now exists e).
    split; [|contradiction].
    split; [intros _; exact Hex | intros _; eauto].
  - split; [|reflexivity].
    split; [intros (b & g & H); discriminate|].
    intros (e & Hin & Hle)%Exists_exists.
    rewrite Forall_forall in Hall; specialize (Hall _ Hin); lia.
Qed.

(** X2. A returned pair is never made up: it is the batch size and the
    accumulation steps of an entry of the configuration, namely the last
    one whose threshold the scaled step has reached. *)
Theorem gradual_training_scheduler_sound
        (device_count : nat) (global_step : Z) (config : list Entry)
        (b g : Z)
        (Hret : gradual_training_scheduler device_count global_step config
                = Ok (b, g)) :
  exists e,
    last_qualifying (global_step * Z.of_nat (Nat.max device_count 1))
                    config e /\
    In e config /\ b = batch_size e /\ g = grad_accum_steps e.
Proof.
  revert Hret; unfold gradual_training_scheduler.
  rewrite num_gpus_max.
  set (scaled := (global_step * Z.of_nat (Nat.max device_count 1))%Z).
  destruct (scan_result scaled None config)
    as [(e & -> & Hlast) | [-> Hall]]; cbn; [|discriminate].
  intros [= <- <-]; exists e; repeat split; try assumption.
  now apply last_qualifying_in in Hlast.
Qed.

Lemma gradual_training_scheduler_sound_witness :
  exists e, In e demo_config /\ 16%Z = batch_size e /\
            2%Z = grad_accum_steps e.
Proof.
  destruct (@gradual_training_scheduler_sound 1 1500 demo_config 16 2
              eq_refl) as (e & _ & Hin & Hb & Hg).
  exists e; repeat split; assumption.
Defined.

(** X3. With strictly increasing thresholds the schedule only moves
    forward: the entry selected at a later step never has a smaller
    threshold than the one selected at an earlier step. *)
Theorem gradual_schedule_monotone
        (device_count : nat) (step1 step2 : Z) (config : list Entry)
        (e1 e2 : Entry)
        (Hinc : strictly_increasing config)
        (Hsteps : (step1 <= step2)%Z)
        (H1 : scan (step1 * Z.of_nat (Nat.max device_count 1)) None config
              = Some e1)
        (H2 : scan (step2 * Z.of_nat (Nat.max device_count 1)) None config
              = Some e2) :
  (step_threshold e1 <= step_threshold e2)%Z.
Proof.
  set (n := Z.of_nat (Nat.max device_count 1)) in *.
  assert (Hn : (0 < n)%Z) by (unfold n; lia).
  destruct (scan_result (step1 * n) None config)
    as [(e & He & Hlast1) | [He _]]; [|congruence].
  rewrite H1 in He; injection He as <-.
  destruct (scan_result (step2 * n) None config)
    as [(e & He & Hlast2) | [He _]]; [|congruence].
  rewrite H2 in He; injection He as <-.
  apply last_qualifying_in in Hlast1 as [Hin1 Hle1].
  apply (last_qualifying_greatest Hinc Hlast2 _ Hin1); nia.
Qed.

Lemma gradual_schedule_monotone_witness :
  (step_threshold (mkEntry 0 32 1) <= step_threshold (mkEntry 2000 8 4))%Z.
Proof.
  apply (@gradual_schedule_monotone 2 300 1200 demo_config
           (mkEntry 0 32 1) (mkEntry 2000 8 4)).
  - simpl; lia.
  - lia.
  - reflexivity.
  - reflexivity.
Defined.

(** X4. A configuration holding an entry with threshold at most 0 never
    fails for a non-negative step, whatever the number of devices. *)
Theorem gradual_training_scheduler_never_fails
        (device_count : nat) (global_step : Z) (config : list Entry)
        (e0 : Entry)
        (Hin : In e0 config) (Hzero : (step_threshold e0 <= 0)%Z)
        (Hstep : (0 <= global_step)%Z) :
  exists b g,
    gradual_training_scheduler device_count global_step config = Ok (b, g).
Proof.
  unfold gradual_training_scheduler; rewrite num_gpus_max.
  set (scaled := (global_step * Z.of_nat (Nat.max device_count 1))%Z).
  assert (Hscaled : (0 <= scaled)%Z) by (unfold scaled; nia).
  destruct (scan_result scaled None config)
    as [(e & -> & _) | [_ Hall]]; cbn; [eauto|].
  rewrite Forall_forall in Hall; specialize (Hall _ Hin); lia.
Qed.

Lemma gradual_training_scheduler_never_fails_witness :
  exists b g, gradual_training_scheduler 4 7 demo_config = Ok (b, g).
Proof.
  apply (@gradual_training_scheduler_never_fails 4 7 demo_config
           (mkEntry 0 32 1)).
  - simpl; tauto.
  - simpl; lia.
  - lia.
Defined.

End GradualMore.

(** ** Further properties of [StepwiseGradualLR.get_lr] *)

Module StepwiseMore.
Import Stepwise StepwiseFacts.

Lemma getitem_at {A} (l1 l2 : list A) x :
  getitem (l1 ++ x :: l2) (Z.of_nat (List.length l1)) = Ok x.
Proof.
  unfold getitem.
  destruct (Z.ltb_spec (Z.of_nat (List.length l1)) 0); [lia|].
  rewrite Nat2Z.id, length_app; cbn [List.length].
  destruct (Z.ltb_spec (Z.of_nat (List.length l1)) 0); [lia|].
  destruct (Z.leb_spec (Z.of_nat (List.length l1 + S (List.length l2)))
                       (Z.of_nat (List.length l1))); [lia|].
  cbn [orb].
  rewrite nth_error_app2, Nat.sub_diag by lia; reflexivity.
Qed.

Lemma getitem_head {A} (x : A) l : getitem (x :: l) 0 = Ok x.
Proof. exact (getitem_at [] l x). Qed.

Lemma getitem_second {A} (x y : A) l : getitem (x :: y :: l) 1 = Ok y.
Proof. exact (getitem_at [x] l y). Qed.

Lemma getitem_minus_one {A} (l : list A) x :
  getitem (l ++ [x]) (-1) = Ok x.
Proof.
  unfold getitem; rewrite length_app; cbn [List.length].
  change (-1 <? 0)%Z with true; cbn iota.
  replace (-1 + Z.of_nat (List.length l + 1))%Z
    with (Z.of_nat (List.length l)) by lia.
  destruct (Z.ltb_spec (Z.of_nat (List.length l)) 0); [lia|].
  destruct (Z.leb_spec (Z.of_nat (List.length l + 1))
                       (Z.of_nat (List.length l))); [lia|].
  cbn [orb]; rewrite Nat2Z.id.
  rewrite nth_error_app2, Nat.sub_diag by lia; reflexivity.
Qed.

(** [seq[-1]] on a non-empty list is its last element. *)
Lemma getitem_last {A} (l : list A) a :
  exists x, getitem (a :: l) (-1) = Ok x /\
            (l = [] /\ x = a \/ In x l).
Proof.
  destruct (@exists_last _ (a :: l)) as (front & x & Heq); [discriminate|].
  exists x; rewrite Heq; split; [apply getitem_minus_one|].
  destruct front as [|a' front]; simpl in Heq.
  - injection Heq as <- <-; now left.
  - injection Heq as <- ->; right; apply in_or_app; right; now left.
Qed.

Lemma where_false_from_skip i l1 l2 step :
  Forall (fun t => (t < step)%Z) l1 ->
  Np.where_false_from i (Np.less (l1 ++ l2) step)
  = Np.where_false_from (i + Z.of_nat (List.length l1)) (Np.less l2 step).
Proof.
  intros H; revert i; induction H as [|t l Ht _ IH]; intros i; simpl.
  - now rewrite Z.add_0_r.
  - destruct (Z.ltb_spec t step); [|lia].
    unfold Np.less in IH; rewrite IH; f_equal; lia.
Qed.

(** The first [False] of the mask is the first threshold that the step
    has not passed. *)
Lemma first_false_at l1 t' l2 step :
  Forall (fun t => (t < step)%Z) l1 -> (step <= t')%Z ->
  getitem (Np.where_false (Np.less (l1 ++ t' :: l2) step)) 0
  = Ok (Z.of_nat (List.length l1)).
Proof.
  intros Hl1 Ht'; unfold Np.where_false.
  rewrite (@where_false_from_skip 0 _ (t' :: l2) _ Hl1); simpl.
  destruct (Z.ltb_spec t' step); [lia|].
  apply getitem_head.
Qed.

Lemma sorted_around (l1 l2 : list Z) a :
  Sorted Z.lt (l1 ++ a :: l2) ->
  Forall (fun t => (t < a)%Z) l1 /\ Forall (fun t => (a < t)%Z) l2.
Proof.
  intros Hs; apply Sorted_StronglySorted in Hs;
    [|intros x y z; apply Z.lt_trans].
  induction l1 as [|b l1 IH]; simpl in Hs;
    apply StronglySorted_inv in Hs as [Hrest Hhead].
  - split; [constructor | exact Hhead].
  - destruct (IH Hrest) as [Hl1 Hl2]; split; [|exact Hl2].
    constructor; [|exact Hl1].
    rewrite Forall_forall in Hhead; apply Hhead.
    apply in_or_app; right; now left.
Qed.

(** Between two consecutive thresholds the earlier pair's rate is
    selected; the later pair takes over only once the step exceeds its
    threshold. *)
Lemma get_lr_between pre t r t' r' post last lrs :
  Sorted Z.lt (map fst (pre ++ (t, r) :: (t', r') :: post)) ->
  (t < Z.max last 1 <= t')%Z ->
  get_lr (mkStepwise (pre ++ (t, r) :: (t', r') :: post) last lrs)
  = Ok (repeat r (List.length lrs)).
Proof.
  intros Hs [Hlo Hhi]; unfold get_lr;
    cbn [gradual_learning_rates last_epoch base_lrs].
  set (step := Z.max last 1) in *.
  rewrite !map_app in *; cbn [map fst snd] in *.
  destruct (@sorted_around _ _ _ Hs) as [Hpre Hpost].
  assert (Hbelow : Forall (fun x => (x < step)%Z) (map fst pre ++ [t])).
  { apply Forall_app; split; [|now repeat constructor].
    eapply Forall_impl; [|exact Hpre]; cbn; intros; lia. }
  replace (map fst pre ++ t :: t' :: map fst post)
    with ((map fst pre ++ [t]) ++ t' :: map fst post)
    by (now rewrite <- app_assoc).
  rewrite (@first_false_at _ _ _ _ Hbelow Hhi).
  rewrite length_app, length_map; cbn [List.length Np.minus_one Np.max_axis0 bind].
  replace (Z.of_nat (List.length pre + 1) - 1)%Z
    with (Z.of_nat (List.length (map snd pre))) by (rewrite length_map; lia).
  rewrite getitem_at; cbn [bind].
  (* the last threshold is at least [t'] *)
  assert (Hlast : exists tl, getitem ((map fst pre ++ [t]) ++ t' :: map fst post) (-1)
                             = Ok tl /\ (step <= tl)%Z).
  { destruct (@exists_last _ (t' :: map fst post)) as (front & tl & Heq);
      [discriminate|].
    exists tl; rewrite Heq, app_assoc; split; [apply getitem_minus_one|].
    destruct front as [|a front]; simpl in Heq.
    - injection Heq as <- _; lia.
    - injection Heq as <- Hp.
      assert (Hs' : Sorted Z.lt ((map fst pre ++ [t]) ++ t' :: map fst post))
        by (now rewrite <- app_assoc).
      apply sorted_around in Hs' as [_ Hgt].
      rewrite Forall_forall in Hgt.
      assert (Hin : In tl (map fst post))
        by (rewrite Hp; apply in_or_app; right; now left).
      specialize (Hgt tl Hin); lia. }
  destruct Hlast as (tl & -> & Htl); cbn [bind].
  destruct (Z.gtb_spec step tl); [lia|]; cbn [bind].
  rewrite <- app_assoc; cbn [app].
  destruct pre as [|[t0 r0] pre]; cbn [map app fst snd].
  - rewrite getitem_second; cbn [bind].
    destruct (step <? t')%Z; [rewrite getitem_head|]; reflexivity.
  - assert (Hsecond : exists t2, getitem (t0 :: map fst pre ++ t :: t' :: map fst post) 1
                                 = Ok t2 /\ (t2 <= t)%Z).
    { destruct pre as [|[t1 r1] pre]; cbn [map app fst].
      - exists t; split; [apply getitem_second | lia].
      - exists t1; split; [apply getitem_second|].
        inversion Hpre as [|? ? _ Hpre']; subst.
        inversion Hpre'; subst; lia. }
    destruct Hsecond as (t2 & -> & Ht2); cbn [bind].
    destruct (Z.ltb_spec step t2); [lia | reflexivity].
Qed.

(** At or below the first threshold the first rate is selected. *)
Lemma get_lr_not_above_first t0 r0 t1 r1 post last lrs :
  Sorted Z.lt (map fst ((t0, r0) :: (t1, r1) :: post)) ->
  (Z.max last 1 <= t0)%Z ->
  get_lr (mkStepwise ((t0, r0) :: (t1, r1) :: post) last lrs)
  = Ok (repeat r0 (List.length lrs)).
Proof.
  intros Hs Hle; unfold get_lr;
    cbn [gradual_learning_rates last_epoch base_lrs map fst snd].
  set (step := Z.max last 1) in *.
  cbn [map fst snd] in Hs.
  destruct (@sorted_around [] _ _ Hs) as [_ Hgt0]; cbn [app] in Hgt0.
  pose proof (@first_false_at [] t0 (t1 :: map fst post) step
                              (Forall_nil _) Hle) as Hff.
  cbn [app List.length Z.of_nat] in Hff; rewrite Hff.
  cbn [Np.minus_one Np.max_axis0 bind Z.sub Z.opp Z.add].
  destruct (getitem_last (r1 :: map snd post) r0) as (rl & -> & _);
    cbn [bind].
  destruct (getitem_last (t1 :: map fst post) t0) as (tl & -> & [[? _] | Hin]);
    [discriminate|]; cbn [bind].
  rewrite Forall_forall in Hgt0.
  assert (Ht1 : (t0 < t1)%Z) by (apply Hgt0; now left).
  specialize (Hgt0 _ Hin).
  destruct (Z.gtb_spec step tl); [lia|]; cbn [bind].
  rewrite getitem_second; cbn [bind].
  destruct (Z.ltb_spec step t1); [|lia].
  rewrite getitem_head; reflexivity.
Qed.

Lemma first_not_passed (cfg : list (Z * float)) step :
  Forall (fun t => (t < step)%Z) (map fst cfg) \/
  exists pre t' r' post,
    cfg = pre ++ (t', r') :: post /\
    Forall (fun t => (t < step)%Z) (map fst pre) /\ (step <= t')%Z.
Proof.
  induction cfg as [|[t r] cfg IH]; [left; constructor|].
  destruct (Z_lt_dec t step) as [Hlt | Hge].
  - destruct IH as [Hall | (pre & t' & r' & post & -> & Hpre & Hle)].
    + left; now constructor.
    + right; exists ((t, r) :: pre), t', r', post; repeat split;
        [now constructor | exact Hle].
  - right; exists [], t, r, cfg; repeat split; [constructor | lia].
Qed.

Lemma in_removelast_before {A} (l1 l2 : list A) x y :
  In x (removelast (l1 ++ x :: y :: l2)).
Proof.
  induction l1 as [|a l1 IH]; [now left|].
  change ((a :: l1) ++ x :: y :: l2) with (a :: (l1 ++ x :: y :: l2)).
  destruct (l1 ++ x :: y :: l2) eqn:E.
  - now destruct l1.
  - cbn [removelast]; right; exact IH.
Qed.

(** X5. In a strictly increasing configuration whose thresholds and
    step are [int64], when the pair at position [j] has threshold [t] and
    rate [r], the next pair has threshold [t'], and [t < step <= t'], the
    rate [r] is returned once per parameter group; in particular the
    later rate only applies from step [t' + 1] on. *)
Theorem stepwise_rate_between_thresholds
        (cfg : list (Z * float)) (j : nat) (t t' : Z) (r r' : float)
        (last : Z) (lrs : list float)
        (Hsorted : Sorted Z.lt (map fst cfg))
        (Hrange : Forall Np.int64 (map fst cfg))
        (Hint : Np.int64 (Z.max last 1))
        (Hj : nth_error cfg j = Some (t, r))
        (Hnext : nth_error cfg (S j) = Some (t', r'))
        (Hstep : (t < Z.max last 1 <= t')%Z) :
  get_lr (mkStepwise cfg last lrs) = Ok (repeat r (List.length lrs)).
Proof.
  apply nth_error_split in Hj as (pre & rest & -> & Hlen).
  rewrite nth_error_app2 in Hnext by lia.
  replace (S j - List.length pre)%nat with 1%nat in Hnext by lia.
  destruct rest as [|[t2 r2] post]; [discriminate|].
  injection Hnext as -> ->.
  now apply get_lr_between.
Qed.

Lemma stepwise_rate_between_thresholds_witness :
  get_lr (mkStepwise demo_rates 200 [rate_initial; rate_initial])
  = Ok [rate_middle; rate_middle].
Proof.
  apply (@stepwise_rate_between_thresholds
           demo_rates 1 100 200 rate_middle rate_final 200
           [rate_initial; rate_initial]).
  - repeat constructor.
  - repeat constructor; simpl; lia.
  - unfold Np.int64; simpl; lia.
  - reflexivity.
  - reflexivity.
  - simpl; lia.
Defined.

(** X6. With at least two pairs and strictly increasing thresholds, a
    step that has not passed the first threshold gets the first rate. *)
Theorem stepwise_rate_up_to_first_threshold
        (cfg : list (Z * float)) (t0 : Z) (r0 : float)
        (last : Z) (lrs : list float)
        (Hsorted : Sorted Z.lt (map fst cfg))
        (Hlen : (2 <= List.length cfg)%nat)
        (Hfirst : nth_error cfg 0 = Some (t0, r0))
        (Hstep : (Z.max last 1 <= t0)%Z) :
  get_lr (mkStepwise cfg last lrs) = Ok (repeat r0 (List.length lrs)).
Proof.
  destruct cfg as [|p0 [|[t1 r1] post]]; cbn [List.length] in Hlen; try lia.
  injection Hfirst as ->.
  now apply get_lr_not_above_first.
Qed.

Lemma stepwise_rate_up_to_first_threshold_witness :
  get_lr (mkStepwise [(10%Z, rate_initial); (20%Z, rate_middle);
                      (30%Z, rate_final)] 4 [rate_initial])
  = Ok [rate_initial].
Proof.
  apply (@stepwise_rate_up_to_first_threshold
           [(10%Z, rate_initial); (20%Z, rate_middle); (30%Z, rate_final)]
           10 rate_initial 4 [rate_initial]).
  - repeat constructor.
  - simpl; lia.
  - reflexivity.
  - simpl; lia.
Defined.

(** X7. In a strictly increasing configuration whose thresholds and
    step are [int64], once the step is above the last threshold the call
    raises [ValueError] and returns no rate: the last rate is never
    reached. *)
Theorem stepwise_raises_past_last_threshold
        (front : list (Z * float)) (t_last : Z) (r_last : float)
        (last : Z) (lrs : list float)
        (Hsorted : Sorted Z.lt (map fst (front ++ [(t_last, r_last)])))
        (Hrange : Forall Np.int64 (map fst (front ++ [(t_last, r_last)])))
        (Hint : Np.int64 (Z.max last 1))
        (Hpast : (t_last < Z.max last 1)%Z) :
  get_lr (mkStepwise (front ++ [(t_last, r_last)]) last lrs)
  = Raise ValueError.
Proof.
  apply get_lr_above_all_thresholds; cbn [gradual_learning_rates last_epoch].
  clear Hrange Hint; rewrite map_app in *; cbn [map fst] in *.
  apply sorted_around in Hsorted as [Hfront _].
  apply Forall_app; split; [|now repeat constructor].
  eapply Forall_impl; [|exact Hfront]; cbn; intros; lia.
Qed.

Lemma stepwise_raises_past_last_threshold_witness :
  get_lr (mkStepwise demo_rates 201 [rate_initial]) = Raise ValueError.
Proof.
  apply (@stepwise_raises_past_last_threshold
           [(0%Z, rate_initial); (100%Z, rate_middle)] 200 rate_final 201
           [rate_initial]).
  - repeat constructor.
  - repeat constructor; simpl; lia.
  - unfold Np.int64; simpl; lia.
  - simpl; lia.
Defined.

(** X8. With strictly increasing thresholds, all [int64] like the
    step, a returned rate always belongs to a pair other than the last
    one, whose threshold is below the step or is the first threshold: the
    rate of the last pair is never returned on account of that pair. *)
Theorem stepwise_returns_earlier_pair
        (cfg : list (Z * float)) (last : Z) (lrs rates : list float)
        (Hsorted : Sorted Z.lt (map fst cfg))
        (Hrange : Forall Np.int64 (map fst cfg))
        (Hint : Np.int64 (Z.max last 1))
        (Hret : get_lr (mkStepwise cfg last lrs) = Ok rates) :
  exists t r,
    In (t, r) (removelast cfg) /\
    rates = repeat r (List.length lrs) /\
    ((t < Z.max last 1)%Z \/ exists rest, cfg = (t, r) :: rest).
Proof.
  destruct (first_not_passed cfg (Z.max last 1))
    as [Hall | (pre & t' & r' & post & -> & Hpre & Hle)].
  - rewrite (@get_lr_above_all_thresholds (mkStepwise cfg last lrs) Hall)
      in Hret; discriminate.
  - destruct pre as [|p pre0].
    + cbn [app] in *; destruct post as [|[t1 r1] post].
      * rewrite get_lr_single_pair_not_below in Hret by exact Hle.
        discriminate.
      * rewrite get_lr_not_above_first in Hret; [|assumption..].
        injection Hret as <-.
        exists t', r'; repeat split; [now left | right; eauto].
    + destruct (@exists_last _ (p :: pre0)) as (front & [t r] & Heq);
        [discriminate|].
      rewrite Heq, <- app_assoc in *; cbn [app] in *.
      assert (Hlt : (t < Z.max last 1)%Z).
      { rewrite map_app, Forall_app in Hpre; destruct Hpre as [_ Ht].
        now inversion Ht. }
      rewrite get_lr_between in Hret; [|assumption | now split].
      injection Hret as <-.
      exists t, r; repeat split;
        [apply in_removelast_before | now left].
Qed.

Lemma stepwise_returns_earlier_pair_witness :
  exists t r,
    In (t, r) (removelast demo_rates) /\
    [rate_middle] = repeat r 1 /\
    ((t < Z.max 150 1)%Z \/ exists rest, demo_rates = (t, r) :: rest).
Proof.
  apply (@stepwise_returns_earlier_pair demo_rates 150 [rate_initial]
           [rate_middle]).
  - repeat constructor.
  - repeat constructor; simpl; lia.
  - unfold Np.int64; simpl; lia.
  - reflexivity.
Defined.

End StepwiseMore.

(** ** A further property of [NoamLR.get_lr] *)

Module WarmupMore.
Import Warmup WarmupFacts.
Local Open Scope R_scope.




End WarmupMore.

(** ** Further properties of [set_weight_decay] *)

Module WeightDecayMore.
Import Torch WeightDecay WeightDecayFacts Selection.

Lemma set_weight_decay_filters model coefficient skip_list :
  set_weight_decay model coefficient skip_list
  = [ {| params := map snd (filter (to_no_decay skip_list) model);
         weight_decay := 0%R |};
      {| params := map snd (filter (to_decay skip_list) model);
         weight_decay := coefficient |} ].
Proof.
  unfold set_weight_decay; now rewrite partition_loop_filter.
Qed.

Lemma filter_split_permutation {A} (f g : A -> bool) l :
  Permutation (filter (fun x => f x && g x)%bool l
               ++ filter (fun x => f x && negb (g x))%bool l)
              (filter f l).
Proof.
  induction l as [|a l IH]; simpl; [constructor|].
  destruct (f a), (g a); simpl.
  - now constructor.
  - symmetry; apply Permutation_cons_app; symmetry; exact IH.
  - exact IH.
  - exact IH.
Qed.

Lemma skips_decay_grows skip1 skip2 name param :
  incl skip1 skip2 ->
  skips_decay skip1 name param = true ->
  skips_decay skip2 name param = true.
Proof.
  intros Hincl; rewrite !skips_decay_spec.
  intros [Hrank | (s & Hin & Hsub)]; [now left | right].
  exists s; split; [now apply Hincl | exact Hsub].
Qed.

(** X15. Each returned group lists its parameters in the order of the
    model's parameter listing: the no-decay group is the listing
    restricted to the eligible parameters that have rank 1 or an excluded
    name, the decay group the listing restricted to the other eligible
    parameters. *)
Theorem set_weight_decay_keeps_order
        (model : Model) (coefficient : R) (skip_list : list string) :
  set_weight_decay model coefficient skip_list
  = [ {| params := map snd (filter (to_no_decay skip_list) model);
         weight_decay := 0%R |};
      {| params := map snd (filter (to_decay skip_list) model);
         weight_decay := coefficient |} ].
Proof.
  unfold set_weight_decay.
  rewrite partition_loop_filter; cbn [app].
  reflexivity.
Qed.

(** X16. The two groups together hold the eligible parameters of the
    listing (name other than ['capacitron_layer.beta'], gradients
    enabled), each as often as it is listed: none is lost and none is
    added. *)
Theorem set_weight_decay_permutation
        (model : Model) (coefficient : R) (skip_list : list string) :
  Permutation
    (flat_map params (set_weight_decay model coefficient skip_list))
    (map snd (filter (fun np => eligible (fst np) (snd np)) model)).
Proof.
  rewrite set_weight_decay_filters; cbn [flat_map params].
  rewrite app_nil_r, <- map_app.
  apply Permutation_map.
  exact (filter_split_permutation
           (fun np => eligible (fst np) (snd np))
           (fun np => skips_decay skip_list (fst np) (snd np)) model).
Qed.

(** X17. Whatever lies in a returned group has gradients enabled and is
    listed under a name other than ['capacitron_layer.beta']. *)
Theorem set_weight_decay_only_eligible
        (model : Model) (coefficient : R) (skip_list : list string)
        (param : Param)
        (Hin : In param
                  (flat_map params
                            (set_weight_decay model coefficient skip_list))) :
  requires_grad param = true /\
  exists name, In (name, param) model /\ name <> reserved_name.
Proof.
  rewrite set_weight_decay_filters in Hin; cbn [flat_map params] in Hin.
  rewrite app_nil_r in Hin.
  apply in_app_or in Hin as [Hin | Hin];
    apply in_filtered in Hin as (name & Hmodel & Hf);
    unfold to_no_decay, to_decay in Hf; cbn in Hf;
    apply andb_true_iff in Hf as [Hel _];
    apply eligible_spec in Hel as [Hname Hgrad]; eauto.
Qed.

Lemma set_weight_decay_only_eligible_witness :
  requires_grad demo_bias = true /\
  exists name, In (name, demo_bias) demo_model /\ name <> reserved_name.
Proof.
  apply (@set_weight_decay_only_eligible demo_model 0.000001%R
                                         default_skip_list demo_bias).
  simpl; tauto.
Defined.

(** X18. When the listing holds each parameter object once, a parameter
    listed as ['capacitron_layer.beta'] and a parameter with gradients
    disabled are in neither group. *)
Theorem set_weight_decay_leaves_out
        (model : Model) (coefficient : R) (skip_list : list string)
        (name : string) (param : Param)
        (Hdistinct : NoDup (map param_id (parameters model)))
        (Hin : In (name, param) model)
        (Hskip : name = reserved_name \/ requires_grad param = false) :
  ~ In param (flat_map params
                       (set_weight_decay model coefficient skip_list)).
Proof.
  intros Hgroup.
  rewrite set_weight_decay_filters in Hgroup; cbn [flat_map params] in Hgroup.
  rewrite app_nil_r in Hgroup.
  apply in_app_or in Hgroup as [Hg | Hg];
    apply in_filtered in Hg as (name' & Hmodel & Hf);
    unfold to_no_decay, to_decay in Hf; cbn in Hf;
    apply andb_true_iff in Hf as [Hel _];
    apply eligible_spec in Hel as [Hname Hgrad];
    (destruct Hskip as [-> | Hfrozen]; [|congruence]);
    apply Hname;
    exact (@in_model_same_param model _ _ _ Hdistinct Hmodel Hin).
Qed.

Lemma set_weight_decay_leaves_out_witness :
  ~ In (mkParam 3 [1%nat] true)
       (flat_map params
                 (set_weight_decay demo_model 0.000001%R default_skip_list)).
Proof.
  apply (@set_weight_decay_leaves_out demo_model 0.000001%R
           default_skip_list "capacitron_layer.beta"%string
           (mkParam 3 [1%nat] true)).
  - simpl; repeat constructor; simpl; intuition lia.
  - simpl; tauto.
  - left; reflexivity.
Defined.

(** X19. Excluding more name fragments only moves parameters from the
    decay group to the no-decay group: with [skip1] included in [skip2],
    the no-decay group for [skip1] is included in the one for [skip2] and
    the decay group for [skip2] in the one for [skip1]. *)
Theorem set_weight_decay_skip_list_monotone
        (model : Model) (coefficient : R) (skip1 skip2 : list string)
        (Hincl : incl skip1 skip2) :
  forall no_decay1 decay1 no_decay2 decay2,
    set_weight_decay model coefficient skip1 = [no_decay1; decay1] ->
    set_weight_decay model coefficient skip2 = [no_decay2; decay2] ->
    incl (params no_decay1) (params no_decay2) /\
    incl (params decay2) (params decay1).
Proof.
  intros nd1 d1 nd2 d2; rewrite !set_weight_decay_filters.
  intros [= <- <-] [= <- <-]; cbn [params]; split; intros p Hp;
    apply in_filtered in Hp as (name & Hmodel & Hf);
    unfold to_no_decay, to_decay in Hf; cbn in Hf;
    apply andb_true_iff in Hf as [Hel Hs];
    apply in_filtered; exists name; (split; [exact Hmodel|]);
    unfold to_no_decay, to_decay; cbn;
    rewrite Hel; cbn.
  - now apply (skips_decay_grows _ _ Hincl).
  - apply negb_true_iff in Hs; apply negb_true_iff.
    destruct (skips_decay skip1 name p) eqn:E; [|reflexivity].
    now rewrite (skips_decay_grows _ _ Hincl E) in Hs.
Qed.

Lemma set_weight_decay_skip_list_monotone_witness :
  incl (map snd (filter (to_no_decay ["gru"%string]) demo_model))
       (map snd (filter (to_no_decay default_skip_list) demo_model)).
Proof.
  assert (Hincl : incl ["gru"%string] default_skip_list)
    by (intros s [<- | []]; simpl; tauto).
  refine (proj1 (@set_weight_decay_skip_list_monotone
                   demo_model 1%R ["gru"%string] default_skip_list Hincl
                   {| params := map snd (filter (to_no_decay ["gru"%string])
                                                demo_model);
                      weight_decay := 0%R |}
                   {| params := map snd (filter (to_decay ["gru"%string])
                                                demo_model);
                      weight_decay := 1%R |}
                   {| params := map snd (filter (to_no_decay default_skip_list)
                                                demo_model);
                      weight_decay := 0%R |}
                   {| params := map snd (filter (to_decay default_skip_list)
                                                demo_model);
                      weight_decay := 1%R |}
                   _ _));
    apply set_weight_decay_filters.
Defined.

End WeightDecayMore.

(** ** Further properties of [adam_weight_decay] *)

Module AdamDecayMore.
Import Torch AdamDecay AdamDecayFacts DecayLaw.
Local Open Scope R_scope.

Lemma map_scale_scale (d : list R) a b :
  map (fun x => x * b) (map (fun x => x * a) d)
  = map (fun x => x * (a * b)) d.
Proof. rewrite map_map; apply map_ext; intros x; ring. Qed.

Lemma map_scale_one (d : list R) : map (fun x => x * 1) d = d.
Proof.
  rewrite <- (map_id d) at 2; apply map_ext; intros x; ring.
Qed.

(** One pass of the inner loop, whatever the parameters. *)
Lemma decay_params_law group ps st cur i :
  let st' := fst (decay_params group ps st cur) in
  data (st' i)
  = map (fun x => x * visits_factor i (1 - lr group * weight_decay group) ps)
        (data (st i)) /\
  grad (st' i) = grad (st i).
Proof.
  revert st cur; induction ps as [|p rest IH]; intros st cur; simpl.
  - split; [now rewrite map_scale_one | reflexivity].
  - set (t' := {| data := _; grad := _ |}).
    destruct (IH (update st (param_id p) t') (Some (lr group))) as [Hd Hg].
    rewrite Hd, Hg; unfold update.
    rewrite (Nat.eqb_sym i (param_id p)).
    destruct (Nat.eqb (param_id p) i) eqn:E.
    + apply Nat.eqb_eq in E; subst i; unfold t'; cbn [data grad].
      split; [|reflexivity].
      rewrite add_alpha_self, map_map; apply map_ext; intros x; ring.
    + split; [|reflexivity].
      apply map_ext; intros x; ring.
Qed.

Lemma decay_groups_law optimizer st cur i :
  let st' := fst (decay_groups optimizer st cur) in
  data (st' i)
  = map (fun x => x * total_factor optimizer i) (data (st i)) /\
  grad (st' i) = grad (st i).
Proof.
  revert st cur; induction optimizer as [|g rest IH]; intros st cur;
    cbn [decay_groups total_factor].
  - split; [now rewrite map_scale_one | reflexivity].
  - pose proof (decay_params_law g (params g) st cur i) as Hstep.
    destruct (decay_params g (params g) st cur) as [st1 cur1];
      cbn [fst] in Hstep.
    destruct (IH st1 cur1) as [Hd Hg]; destruct Hstep as [Hd1 Hg1].
    rewrite Hd, Hg, Hd1, Hg1, map_scale_scale; split; reflexivity.
Qed.

Lemma adam_weight_decay_store optimizer st :
  snd (adam_weight_decay optimizer st)
  = fst (decay_groups optimizer st None).
Proof.
  unfold adam_weight_decay.
  now destruct (decay_groups optimizer st None).
Qed.

Lemma visits_factor_range i f ps :
  0 <= f <= 1 -> 0 <= visits_factor i f ps <= 1.
Proof.
  intros Hf; induction ps as [|p rest IH]; simpl; [lra|].
  destruct (Nat.eqb (param_id p) i); nra.
Qed.

Lemma total_factor_range optimizer i :
  (forall g, In g optimizer -> 0 <= lr g * weight_decay g <= 1) ->
  0 <= total_factor optimizer i <= 1.
Proof.
  induction optimizer as [|g rest IH]; intros H; simpl; [lra|].
  assert (Hg : 0 <= 1 - lr g * weight_decay g <= 1)
    by (specialize (H g (or_introl eq_refl)); lra).
  pose proof (visits_factor_range i (params g) Hg).
  assert (0 <= total_factor rest i <= 1)
    by (apply IH; intros g' Hin; apply H; now right).
  nra.
Qed.

Lemma visits_factor_untouched i f ps :
  (In i (map param_id ps) -> f = 1) -> visits_factor i f ps = 1.
Proof.
  induction ps as [|p rest IH]; simpl; intros H; [reflexivity|].
  rewrite IH by (intros Hin; apply H; now right).
  destruct (Nat.eqb_spec (param_id p) i) as [Heq | _]; [|ring].
  rewrite H by (now left); ring.
Qed.

Lemma total_factor_untouched optimizer i :
  (forall g, In g optimizer -> In i (map param_id (params g)) ->
             lr g * weight_decay g = 0) ->
  total_factor optimizer i = 1.
Proof.
  induction optimizer as [|g rest IH]; intros H; simpl; [reflexivity|].
  rewrite IH by (intros g' Hin; apply H; now right).
  rewrite visits_factor_untouched; [ring|].
  intros Hin; rewrite (H g (or_introl eq_refl) Hin); ring.
Qed.

(** X20. Whatever the optimizer, even with a parameter listed several
    times, the data of every tensor is multiplied by the product of the
    factors [1 - lr * weight_decay] of its occurrences, taken over all
    groups; a parameter listed twice in a group is thus decayed twice. *)
Theorem adam_weight_decay_product (optimizer : Optimizer) (st : Store)
        (i : nat) :
  data (snd (adam_weight_decay optimizer st) i)
  = map (fun x => x * total_factor optimizer i) (data (st i)).
Proof.
  rewrite adam_weight_decay_store.
  apply (decay_groups_law optimizer st None i).
Qed.

(** X21. Whatever the optimizer, the decay step changes neither a
    gradient nor the number of elements of a tensor. *)
Theorem adam_weight_decay_keeps_shape_and_grad
        (optimizer : Optimizer) (st : Store) (i : nat) :
  grad (snd (adam_weight_decay optimizer st) i) = grad (st i) /\
  List.length (data (snd (adam_weight_decay optimizer st) i))
  = List.length (data (st i)).
Proof.
  rewrite adam_weight_decay_store.
  destruct (decay_groups_law optimizer st None i) as [Hd Hg].
  now rewrite Hd, Hg, length_map.
Qed.

(** X22. A tensor is left as it was when every group that lists it has
    [lr * weight_decay = 0]; this covers the tensors the optimizer does
    not hold and the groups built with [weight_decay = 0]. *)
Theorem adam_weight_decay_untouched (optimizer : Optimizer) (st : Store)
        (i : nat)
        (Hzero : forall g, In g optimizer ->
                           In i (map param_id (params g)) ->
                           lr g * weight_decay g = 0) :
  data (snd (adam_weight_decay optimizer st) i) = data (st i) /\
  grad (snd (adam_weight_decay optimizer st) i) = grad (st i).
Proof.
  rewrite adam_weight_decay_store.
  destruct (decay_groups_law optimizer st None i) as [Hd Hg].
  rewrite Hd, Hg, (total_factor_untouched optimizer i Hzero).
  now rewrite map_scale_one.
Qed.

Lemma adam_weight_decay_untouched_witness :
  data (snd (adam_weight_decay demo_optimizer demo_store) 2%nat)
  = data (demo_store 2%nat).
Proof.
  apply (@adam_weight_decay_untouched demo_optimizer demo_store 2%nat).
  intros g [<- | [<- | []]]; simpl.
  - intros [H | [H | []]]; discriminate H.
  - intros _; lra.
Defined.

(** X23. When [0 <= lr * weight_decay <= 1] in every group, the decay
    step never increases the magnitude of an element. *)
Theorem adam_weight_decay_shrinks (optimizer : Optimizer) (st : Store)
        (i : nat)
        (Hrange : forall g, In g optimizer ->
                            0 <= lr g * weight_decay g <= 1) :
  Forall2 (fun after before => Rabs after <= Rabs before)
          (data (snd (adam_weight_decay optimizer st) i))
          (data (st i)).
Proof.
  rewrite adam_weight_decay_product.
  pose proof (total_factor_range optimizer i Hrange) as Hf.
  induction (data (st i)) as [|x d IH]; simpl; constructor; [|exact IH].
  rewrite Rabs_mult, (Rabs_pos_eq (total_factor optimizer i)) by lra.
  pose proof (Rabs_pos x); nra.
Qed.

Lemma adam_weight_decay_shrinks_witness :
  Forall2 (fun after before => Rabs after <= Rabs before)
          (data (snd (adam_weight_decay demo_optimizer demo_store) 0%nat))
          (data (demo_store 0%nat)).
Proof.
  apply (@adam_weight_decay_shrinks demo_optimizer demo_store 0%nat).
  intros g [<- | [<- | []]]; simpl; lra.
Defined.

End AdamDecayMore.

(** ** Further properties of [check_update] *)

Module GradCheckMore.
Import Torch GradCheck.



End GradCheckMore.
